(** * RecentChats: the recent-chats preview of the chat history cache

    A shallow embedding of [listen-interface/src/components/RecentChats.tsx]:
    the [loadRecentChats] effect (read the cache, sort by recency, keep five),
    the [getLocale] helper and the rows the component renders.

    Conventions of the embedding.
    - A JavaScript string is a [string]; one character stands for one UTF-16
      code unit, which is the unit [slice] and [startsWith] count in.
    - A [Date] is its time value, the number of milliseconds since the epoch.
      Time values of valid dates are integers of magnitude at most 8.64e15,
      so the sign of a difference of two of them is the sign of the exact
      integer difference; numbers are therefore [Z]. An invalid date (time
      value NaN) is outside the model.
    - Chat records are objects: arrays hold references ([loc]) into a [store],
      and every function that could touch an object returns the store it
      leaves behind.
    - A promise is represented by the way it settles ([settled]). *)

From Stdlib Require Import ZArith String Ascii List Lia.
From Stdlib Require Import Sorting.Sorted Sorting.Permutation.
From stdpp Require Import base option list.

Local Open Scope string_scope.
Local Open Scope list_scope.
Local Open Scope Z_scope.

(** ** JavaScript primitives used by the component *)

(** [x ?? d]: the left operand unless it is [null] or [undefined] ([None]). *)
Definition nullish_coalescing {A : Type} (x : option A) (d : A) : A :=
  match x with
  | Some v => v
  | None => d
  end.

Notation "x ?? d" := (nullish_coalescing x d) (at level 45, left associativity).

(** Index clamping shared by [Array.prototype.slice] and
    [String.prototype.slice]: a negative index counts from the end. *)
Definition relative_index (len k : Z) : Z :=
  if k <? 0 then Z.max (len + k) 0 else Z.min k len.

(** [arr.slice(start, end)]: a fresh array, the receiver is left as it is. *)
Definition Array_slice {A : Type} (arr : list A) (start end_ : Z) : list A :=
  let len := Z.of_nat (length arr) in
  let k := relative_index len start in
  let final := relative_index len end_ in
  take (Z.to_nat (final - k)) (drop (Z.to_nat k) arr).

(** [s.slice(start, end)] on strings. *)
Definition String_slice (s : string) (start end_ : Z) : string :=
  let len := Z.of_nat (String.length s) in
  let k := relative_index len start in
  let final := relative_index len end_ in
  substring (Z.to_nat k) (Z.to_nat (final - k)) s.

(** [s.startsWith(search)]. *)
Definition startsWith (s search : string) : bool := String.prefix search s.

(** [ToString] of a value that is a string or [undefined]. *)
Definition ToString (v : option string) : string :=
  match v with
  | Some s => s
  | None => "undefined"
  end.

(** [v + s] where [s] is a string: string concatenation after [ToString]. *)
Definition js_plus (v : option string) (s : string) : string :=
  (ToString v ++ s)%string.

(** [ToBoolean] of a value that is a string or [undefined]: [undefined] and
    the empty string are falsy. *)
Definition ToBoolean (v : option string) : bool :=
  match v with
  | None => false
  | Some EmptyString => false
  | Some (String _ _) => true
  end.

(** [v || w]: [v] when it is truthy, [w] otherwise. *)
Definition js_or (v : option string) (w : string) : string :=
  if ToBoolean v then ToString v else w.

(** Stable insertion of [x] in front of a list it precedes in the original
    array: [x] stays before [y] unless the comparator says [y] comes first. *)
Fixpoint sort_insert {A : Type} (comparefn : A -> A -> Z) (x : A) (l : list A)
  : list A :=
  match l with
  | [] => [x]
  | y :: l' =>
      if comparefn x y <=? 0 then x :: y :: l'
      else y :: sort_insert comparefn x l'
  end.

(** [arr.sort(comparefn)]. ECMAScript requires the sort to be stable and,
    for a consistent comparator, to produce the order the comparator
    describes; that result is unique ([Array_sort_unique] below), and a
    stable insertion sort computes it. The sort is in place: the result is
    the new content of [arr]. *)
Definition Array_sort {A : Type} (comparefn : A -> A -> Z) (arr : list A)
  : list A :=
  foldr (sort_insert comparefn) [] arr.

(** ** Data model ([types/message]) *)

Record Date := { getTime : Z }.

Record Message := { message : string }.

Record Chat := {
  id : string;
  title : option string;
  messages : list Message;
  lastMessageAt : Date;
}.

(** References to Chat objects, and the store they live in. *)
Definition loc := nat.

Definition store := loc -> Chat.

(** ** Promises *)

Inductive JsError := Error (msg : string).

Inductive settled (A : Type) :=
| Fulfilled (value : A)
| Rejected (reason : JsError).

Arguments Fulfilled {A} value.
Arguments Rejected {A} reason.

(** ** loadRecentChats *)

(** The comparator passed to [sort] (lines 21-23). [getTime] returns a
    number, never [undefined], so its result is always [Some]. *)
Definition compareFn (h : store) (a b : loc) : Z :=
  (Some (getTime (lastMessageAt (h b))) ?? 0) -
  (Some (getTime (lastMessageAt (h a))) ?? 0).

(** What one run of [loadRecentChats] leaves behind. *)
Record LoadResult := {
  store_after : store;
  allChats_after : option (list loc);
  recentChats_after : list loc;
  completion : settled unit;
}.

(** The async function [loadRecentChats] (lines 16-28), given how
    [chatCache.getAll()] settles and the current state [recentChats].
    A rejected read is rethrown by [await]; the function has no handler,
    so its own promise rejects with the same reason. *)
Definition loadRecentChats (h : store) (getAll : settled (list loc))
    (recentChats : list loc) : LoadResult :=
  match getAll with
  | Rejected reason =>
      {| store_after := h;
         allChats_after := None;
         recentChats_after := recentChats;
         completion := Rejected reason |}
  | Fulfilled allChats =>
      if 0 <? Z.of_nat (length allChats) then
        let sorted := Array_sort (compareFn h) allChats in
        let recent := Array_slice sorted 0 5 in
        {| store_after := h;
           allChats_after := Some sorted;
           recentChats_after := recent;
           completion := Fulfilled tt |}
      else
        {| store_after := h;
           allChats_after := Some allChats;
           recentChats_after := recentChats;
           completion := Fulfilled tt |}
  end.

(** ** The component instance and its life cycle *)

(** Where an instance is in its activation: rendered but effects not yet
    run, suspended at [await chatCache.getAll()], or past it. *)
Inductive phase := Mounting | Awaiting | Done.

Record instance := {
  recentChats : list loc;
  current : phase;
  getAll_calls : nat;
  unhandled_rejections : list JsError;
}.

(** [useState<Chat[]>([])] at mount: nothing read yet. *)
Definition initial : instance :=
  {| recentChats := [];
     current := Mounting;
     getAll_calls := 0;
     unhandled_rejections := [] |}.

Inductive event :=
| RunEffects
| Settle (getAll : settled (list loc))
| Rerender.

(** The promise returned by [loadRecentChats()] is dropped by the effect
    (line 30): a rejection of it has no handler and is reported to the host
    as an unhandled rejection. *)
Definition report_unhandled (p : settled unit) (log : list JsError)
  : list JsError :=
  match p with
  | Fulfilled _ => log
  | Rejected reason => log ++ [reason]
  end.

(** One step of the instance over the store of Chat objects.
    - [RunEffects]: the effect has the dependency list [[]], so it runs
      after the first commit only; it calls [loadRecentChats()], which
      issues the read and suspends.
    - [Settle]: the pending read settles and [loadRecentChats] resumes.
    - [Rerender]: rendering calls no setter and re-runs no effect. *)
Definition step (w : store * instance) (ev : event) : store * instance :=
  let (h, c) := w in
  match ev, current c with
  | RunEffects, Mounting =>
      (h, {| recentChats := recentChats c;
             current := Awaiting;
             getAll_calls := S (getAll_calls c);
             unhandled_rejections := unhandled_rejections c |})
  | Settle getAll, Awaiting =>
      let r := loadRecentChats h getAll (recentChats c) in
      (store_after r,
       {| recentChats := recentChats_after r;
          current := Done;
          getAll_calls := getAll_calls c;
          unhandled_rejections :=
            report_unhandled (completion r) (unhandled_rejections c) |})
  | _, _ => (h, c)
  end.

Definition run (w : store * instance) (evs : list event) : store * instance :=
  foldl step w evs.

(** The worlds an activation passes through, the starting one excluded. *)
Fixpoint trace (w : store * instance) (evs : list event)
  : list (store * instance) :=
  match evs with
  | [] => []
  | ev :: evs' => step w ev :: trace (step w ev) evs'
  end.

(** The two states of the view. *)
Definition populated (c : instance) : bool :=
  0 <? Z.of_nat (length (recentChats c)).

(** Number of changes from empty to populated along a sequence of
    instances, starting from [c]. *)
Fixpoint populations (c : instance) (cs : list instance) : nat :=
  match cs with
  | [] => 0%nat
  | c' :: cs' =>
      ((if negb (populated c) && populated c' then 1 else 0)
       + populations c' cs')%nat
  end.

(** Number of changes from populated back to empty. *)
Fixpoint depopulations (c : instance) (cs : list instance) : nat :=
  match cs with
  | [] => 0%nat
  | c' :: cs' =>
      ((if populated c && negb (populated c') then 1 else 0)
       + depopulations c' cs')%nat
  end.

(** ** Rendering *)

(** [date-fns/locale]: the component imports one locale. *)
Inductive Locale := zhCN.

Record FormatOptions := {
  addSuffix : bool;
  locale : option Locale;
}.

(** The collaborators the component reads: [i18n.language], the
    translation function [t] of [useTranslation] and date-fns'
    [formatDistanceToNow] (at the instant of the render). *)
Record Env := {
  language : string;
  t : string -> string;
  formatDistanceToNow : Date -> FormatOptions -> string;
}.

(** [getLocale] (lines 33-35); [None] is [undefined], date-fns' default
    locale. *)
Definition getLocale (env : Env) : option Locale :=
  if startsWith (language env) "zh" then Some zhCN else None.

(** The [Link] elements the component returns. *)
Inductive row :=
| ChatLink (key to chatId label time : string)
| ViewAllLink (to text : string).

(** The label expression of line 48:
    [chat.title || chat.messages[0]?.message.slice(0, 20) + "..."]. *)
Definition label (chat : Chat) : string :=
  js_or (title chat)
    (js_plus ((fun m => String_slice (message m) 0 20) <$> messages chat !! 0%nat)
             "...").

(** The relative-time expression of lines 51-54. *)
Definition relative_time (env : Env) (chat : Chat) : string :=
  formatDistanceToNow env (lastMessageAt chat)
    {| addSuffix := true; locale := getLocale env |}.

(** The row of one chat (lines 40-57). *)
Definition chat_row (env : Env) (h : store) (r : loc) : row :=
  let chat := h r in
  ChatLink (id chat) "/chat" (id chat) (label chat) (relative_time env chat).

(** The row of line 60-65. *)
Definition view_all_row (env : Env) : row :=
  ViewAllLink "/chat-history" (t env "recent_chats.view_all_chats").

(** The children of the [div] the component returns (lines 39-66);
    [cond && element] renders nothing when [cond] is false. *)
Definition RecentChats (env : Env) (h : store) (c : instance) : list row :=
  map (chat_row env h) (recentChats c)
  ++ (if 0 <? Z.of_nat (length (recentChats c)) then [view_all_row env] else []).

Definition is_view_all (r : row) : bool :=
  match r with
  | ViewAllLink _ _ => true
  | ChatLink _ _ _ _ _ => false
  end.

Definition view_all_count (rows : list row) : nat :=
  length (filter (fun r => is_view_all r = true) rows).

(** The text of a row's label and of its relative-time line; the view-all
    row has only a text. *)
Definition row_label (r : row) : string :=
  match r with
  | ChatLink _ _ _ lbl _ => lbl
  | ViewAllLink _ text => text
  end.

Definition row_time (r : row) : option string :=
  match r with
  | ChatLink _ _ _ _ time => Some time
  | ViewAllLink _ _ => None
  end.

(** The [key] prop of a row: chat rows are keyed by the chat id (line 41),
    the view-all row is a single child and carries none. *)
Definition row_key (r : row) : option string :=
  match r with
  | ChatLink key _ _ _ _ => Some key
  | ViewAllLink _ _ => None
  end.

(** The instances an activation over the store [h] can be in. *)
Inductive activated (h : store) : instance -> Prop :=
| act_mounting : activated h initial
| act_awaiting :
    activated h {| recentChats := []; current := Awaiting;
                   getAll_calls := 1; unhandled_rejections := [] |}
| act_failed reason :
    activated h {| recentChats := []; current := Done;
                   getAll_calls := 1; unhandled_rejections := [reason] |}
| act_loaded allChats :
    activated h
      {| recentChats := recentChats_after (loadRecentChats h (Fulfilled allChats) []);
         current := Done;
         getAll_calls := 1; unhandled_rejections := [] |}.

(** The order a sort by decreasing [key] establishes: [a] may stand before
    [b] when [a]'s key is at least [b]'s. *)
Definition newest_first {A : Type} (key : A -> Z) (a b : A) : Prop :=
  key b <= key a.

(** The recency key of the Chat object a reference designates. *)
Definition recency (h : store) (r : loc) : Z := getTime (lastMessageAt (h r)).

(** ** Sample data *)

(** The instant [T] of the scenarios, in milliseconds since the epoch. *)
Definition T_now : Z := 1700000000000.

(** Chat [r] of the scenario store was last active at [T - r]. Chats 1 to 3
    carry a title, chat 4 an empty one, the others none; chat 6 has no
    message. *)
Definition scenario_chat (r : loc) : Chat :=
  {| id := String (ascii_of_nat (48 + r)) "";
     title := match r with
              | 1%nat | 2%nat | 3%nat => Some "Solana swaps"
              | 4%nat => Some ""
              | _ => None
              end;
     messages := match r with
                 | 6%nat => []
                 | _ => [ {| message := "what is the price of SOL today" |};
                          {| message := "thanks" |} ]
                 end;
     lastMessageAt := {| getTime := T_now - Z.of_nat r |} |}.

Definition scenario_store : store := scenario_chat.

(** The array [getAll] resolves with in the six-chat scenario. *)
Definition six_chats : list loc := [3; 6; 1; 5; 2; 4]%nat.

Definition english : Env :=
  {| language := "en";
     t := fun key => key;
     formatDistanceToNow := fun d o =>
       match locale o with
       | None => "5 minutes ago"
       | Some zhCN => "5 fen zhong qian"
       end |}.

Definition chinese : Env :=
  {| language := "zh-CN";
     t := t english;
     formatDistanceToNow := formatDistanceToNow english |}.

(** A cache of fewer than five chats. *)
Definition three_chats : list loc := [2; 3; 1]%nat.

(** An activation whose read resolves with [allChats]. *)
Definition activation (allChats : list loc) : list event :=
  [RunEffects; Rerender; Settle (Fulfilled allChats); Rerender].

(** An activation whose read rejects. *)
Definition failed_activation (reason : JsError) : list event :=
  [RunEffects; Rerender; Settle (Rejected reason); Rerender].

(** * Properties *)

(** ** Slices *)

Lemma relative_index_0 (len : Z) : 0 <= len -> relative_index len 0 = 0.
Proof. intros Hlen. unfold relative_index. simpl. lia. Qed.

Lemma relative_index_nonneg (len k : Z) :
  0 <= len -> 0 <= k -> relative_index len k = Z.min k len.
Proof.
  intros Hlen Hk. unfold relative_index.
  destruct (Z.ltb_spec k 0); [lia | reflexivity].
Qed.

Lemma Array_slice_prefix {A : Type} (arr : list A) (n : nat) :
  Array_slice arr 0 (Z.of_nat n) = take n arr.
Proof.
  unfold Array_slice.
  rewrite relative_index_0, relative_index_nonneg by lia.
  change (Z.to_nat 0) with 0%nat. rewrite drop_0, Z.sub_0_r.
  destruct (Nat.le_gt_cases n (length arr)) as [Hle | Hgt].
  - rewrite Z.min_l by lia. by rewrite Nat2Z.id.
  - rewrite Z.min_r by lia. rewrite Nat2Z.id.
    rewrite !take_ge by lia. done.
Qed.

Lemma substring_0_min (s : string) (n : nat) :
  substring 0 (Nat.min n (String.length s)) s = substring 0 n s.
Proof.
  revert n. induction s as [| a s IH]; intros [| n]; simpl; try reflexivity.
  by rewrite IH.
Qed.

Lemma String_slice_prefix (s : string) (n : nat) :
  String_slice s 0 (Z.of_nat n) = substring 0 n s.
Proof.
  unfold String_slice.
  rewrite relative_index_0, relative_index_nonneg by lia.
  simpl. rewrite Z.sub_0_r, <- Nat2Z.inj_min, Nat2Z.id.
  apply substring_0_min.
Qed.

(** ** The sort *)

Lemma sort_insert_Permutation {A : Type} (cmp : A -> A -> Z) (x : A) (l : list A) :
  sort_insert cmp x l ≡ₚ x :: l.
Proof.
  induction l as [| y l IH]; simpl; [done |].
  destruct (cmp x y <=? 0); [done |].
  rewrite IH. apply Permutation_swap.
Qed.

Lemma Array_sort_Permutation {A : Type} (cmp : A -> A -> Z) (l : list A) :
  Array_sort cmp l ≡ₚ l.
Proof.
  induction l as [| x l IH]; simpl; [done |].
  fold (Array_sort cmp l). by rewrite sort_insert_Permutation, IH.
Qed.

Lemma Array_sort_length {A : Type} (cmp : A -> A -> Z) (l : list A) :
  length (Array_sort cmp l) = length l.
Proof. apply Permutation_length, Array_sort_Permutation. Qed.

Section descending.

(** A comparator that orders by decreasing [key], as [compareFn] does. *)
Context {A : Type} (key : A -> Z) (cmp : A -> A -> Z).
Hypothesis cmp_key : forall a b, cmp a b <= 0 <-> key b <= key a.

Lemma sort_insert_sorted (x : A) (l : list A) :
  StronglySorted (newest_first key) l ->
  StronglySorted (newest_first key) (sort_insert cmp x l).
Proof.
  induction 1 as [| y l Hl IH Hy]; simpl.
  - repeat constructor.
  - destruct (Z.leb_spec (cmp x y) 0) as [Hle | Hgt].
    + apply cmp_key in Hle.
      constructor; [by constructor |].
      constructor; [done |].
      eapply Forall_impl; [exact Hy |].
      intros z Hz. unfold newest_first in *. lia.
    + assert (key x < key y) as Hlt.
      { destruct (Z.le_gt_cases (key y) (key x)) as [H | H]; [| lia].
        apply cmp_key in H. lia. }
      constructor; [done |].
      rewrite sort_insert_Permutation.
      constructor; [unfold newest_first; lia | done].
Qed.

Lemma Array_sort_sorted (l : list A) : StronglySorted (newest_first key) (Array_sort cmp l).
Proof.
  induction l as [| x l IH]; simpl; [constructor |].
  by apply sort_insert_sorted.
Qed.

(** Stability: elements with equal keys keep their relative order. *)
Lemma sort_insert_stable (k : Z) (x : A) (l : list A) :
  filter (fun a => key a = k) (sort_insert cmp x l)
  = filter (fun a => key a = k) (x :: l).
Proof.
  induction l as [| y l IH]; simpl; [done |].
  destruct (Z.leb_spec (cmp x y) 0) as [Hle | Hgt]; [done |].
  assert (key x <> key y) as Hne.
  { intros Heq. assert (cmp x y <= 0); [apply cmp_key; lia | lia]. }
  rewrite !filter_cons. rewrite !filter_cons in IH.
  destruct (decide (key y = k)), (decide (key x = k)); try lia;
    rewrite IH; done.
Qed.

Lemma Array_sort_stable (k : Z) (l : list A) :
  filter (fun a => key a = k) (Array_sort cmp l) = filter (fun a => key a = k) l.
Proof.
  induction l as [| x l IH]; simpl; [done |].
  fold (Array_sort cmp l).
  rewrite sort_insert_stable, !filter_cons, IH. done.
Qed.

End descending.

(** A list ordered by decreasing key is determined by its classes of equal
    keys, each in its order. *)
Lemma sorted_classes_unique {A : Type} (key : A -> Z) (l1 l2 : list A) :
  StronglySorted (newest_first key) l1 ->
  StronglySorted (newest_first key) l2 ->
  (forall k, filter (fun a => key a = k) l1 = filter (fun a => key a = k) l2) ->
  l1 = l2.
Proof.
  intros H1. revert l2.
  induction H1 as [| x l1 Hl1 IH Hx]; intros l2 H2 Hcls.
  - destruct l2 as [| y l2]; [done |].
    specialize (Hcls (key y)). by rewrite filter_cons_True in Hcls.
  - destruct H2 as [| y l2 Hl2 Hy].
    { specialize (Hcls (key x)). by rewrite filter_cons_True in Hcls. }
    assert (key x = key y) as Hk.
    { assert (x ∈ y :: l2) as Hin.
      { eapply (list_elem_of_filter (fun a => key a = key x)).
        rewrite <- Hcls, filter_cons_True by done. apply list_elem_of_here. }
      assert (y ∈ x :: l1) as Hin'.
      { eapply (list_elem_of_filter (fun a => key a = key y)).
        rewrite Hcls, filter_cons_True by done. apply list_elem_of_here. }
      rewrite Forall_forall in Hx, Hy. unfold newest_first in *.
      apply elem_of_cons in Hin as [-> | Hin]; [done |].
      apply elem_of_cons in Hin' as [-> | Hin']; [done |].
      specialize (Hx _ Hin'). specialize (Hy _ Hin). lia. }
    assert (x = y) as ->.
    { specialize (Hcls (key x)).
      rewrite !filter_cons_True in Hcls by done. congruence. }
    f_equal. apply IH; [done |]. intros k. specialize (Hcls k).
    rewrite !filter_cons in Hcls. destruct (decide (key y = k)); congruence.
Qed.

(** Any array that is ordered by decreasing key and keeps each class of
    equal keys in its original order is the array [Array_sort] computes:
    the outcome of a stable sort does not depend on the algorithm. *)
Lemma Array_sort_unique {A : Type} (key : A -> Z) (cmp : A -> A -> Z)
    (l sorted : list A) :
  (forall a b, cmp a b <= 0 <-> key b <= key a) ->
  StronglySorted (newest_first key) sorted ->
  (forall k, filter (fun a => key a = k) sorted = filter (fun a => key a = k) l) ->
  sorted = Array_sort cmp l.
Proof.
  intros Hcmp Hsorted Hstable.
  apply (sorted_classes_unique key); [done | by apply Array_sort_sorted |].
  intros k. by rewrite Hstable, (Array_sort_stable key cmp Hcmp).
Qed.

Lemma StronglySorted_lookup {A : Type} (R : A -> A -> Prop) (l : list A)
    (i j : nat) (a b : A) :
  StronglySorted R l -> (i < j)%nat -> l !! i = Some a -> l !! j = Some b -> R a b.
Proof.
  intros Hl. revert i j. induction Hl as [| x l Hl IH Hx]; intros i j Hij Hi Hj.
  - done.
  - destruct j as [| j]; [lia |]. destruct i as [| i]; simpl in *.
    + injection Hi as <-. rewrite Forall_forall in Hx.
      apply Hx. eapply list_elem_of_lookup_2, Hj.
    + apply (IH i j); [lia | done | done].
Qed.

Lemma StronglySorted_take {A : Type} (R : A -> A -> Prop) (l : list A) (n : nat) :
  StronglySorted R l -> StronglySorted R (take n l).
Proof.
  intros Hl. revert n. induction Hl as [| x l Hl IH Hx]; intros [| n]; simpl;
    try constructor.
  - apply IH.
  - by apply Forall_take.
Qed.

Lemma StronglySorted_take_drop {A : Type} (R : A -> A -> Prop) (l : list A)
    (n : nat) (a b : A) :
  StronglySorted R l -> a ∈ take n l -> b ∈ drop n l -> R a b.
Proof.
  intros Hl Ha Hb.
  apply list_elem_of_lookup in Ha as [i Hi], Hb as [j Hj].
  rewrite lookup_drop in Hj.
  assert (i < n)%nat as Hin by (apply lookup_lt_Some in Hi; rewrite length_take in Hi; lia).
  rewrite lookup_take_lt in Hi by done.
  apply (StronglySorted_lookup R l i (n + j)); [done | lia | done | done].
Qed.

(** ** loadRecentChats *)

Lemma compareFn_recency (h : store) (a b : loc) :
  compareFn h a b <= 0 <-> recency h b <= recency h a.
Proof. unfold compareFn, recency. simpl. lia. Qed.

Lemma loadRecentChats_recent (h : store) (allChats st : list loc) :
  allChats <> [] ->
  recentChats_after (loadRecentChats h (Fulfilled allChats) st)
  = take 5 (Array_sort (compareFn h) allChats).
Proof.
  intros Hne. unfold loadRecentChats.
  destruct (Z.ltb_spec 0 (Z.of_nat (length allChats))) as [Hlt | Hge].
  - simpl. apply (Array_slice_prefix _ 5).
  - destruct allChats; [done | simpl in Hge; lia].
Qed.

Lemma loadRecentChats_empty (h : store) (st : list loc) :
  recentChats_after (loadRecentChats h (Fulfilled []) st) = st.
Proof. reflexivity. Qed.

Lemma loadRecentChats_sorted (h : store) (getAll : settled (list loc)) :
  StronglySorted (newest_first (recency h))
    (recentChats_after (loadRecentChats h getAll [])).
Proof.
  destruct getAll as [[| r allChats] | reason]; try constructor.
  rewrite loadRecentChats_recent by done.
  apply StronglySorted_take.
  apply (Array_sort_sorted (recency h) (compareFn h) (compareFn_recency h)).
Qed.

Lemma loadRecentChats_length (h : store) (getAll : settled (list loc)) :
  (length (recentChats_after (loadRecentChats h getAll [])) <= 5)%nat.
Proof.
  destruct getAll as [[| r allChats] | reason]; [simpl; lia | | simpl; lia].
  rewrite (loadRecentChats_recent h (r :: allChats)) by done.
  rewrite length_take. lia.
Qed.

Lemma loadRecentChats_nonempty (h : store) (allChats st : list loc) :
  allChats <> [] ->
  recentChats_after (loadRecentChats h (Fulfilled allChats) st) <> [].
Proof.
  intros Hne. rewrite loadRecentChats_recent by done.
  intros Hnil. apply (f_equal length) in Hnil.
  rewrite length_take, Array_sort_length in Hnil.
  destruct allChats; [done | simpl in Hnil; lia].
Qed.

(** Chats with the same [lastMessageAt] stay in the order of the array the
    cache resolved with. *)
Remark loadRecentChats_ties_keep_order (h : store) (allChats : list loc) (k : Z) :
  filter (fun r => recency h r = k) (Array_sort (compareFn h) allChats)
  = filter (fun r => recency h r = k) allChats.
Proof. apply (Array_sort_stable (recency h)), compareFn_recency. Qed.

(** ** Reachable instances *)

Lemma step_activated (h : store) (c : instance) (ev : event) :
  activated h c -> exists c', step (h, c) ev = (h, c') /\ activated h c'.
Proof.
  intros Hc. destruct Hc, ev as [| [arr | e] |]; simpl;
    eauto using activated.
  eexists. split; [| apply (act_loaded h arr)].
  unfold loadRecentChats. by destruct (0 <? Z.of_nat (length arr)).
Qed.

Lemma run_cons (w : store * instance) (ev : event) (evs : list event) :
  run w (ev :: evs) = run (step w ev) evs.
Proof. reflexivity. Qed.

Lemma run_app (w : store * instance) (evs evs' : list event) :
  run w (evs ++ evs') = run (run w evs) evs'.
Proof. apply foldl_app. Qed.

Lemma run_activated (h : store) (c : instance) (evs : list event) :
  activated h c -> exists c', run (h, c) evs = (h, c') /\ activated h c'.
Proof.
  revert c. induction evs as [| ev evs IH]; intros c Hc.
  - exists c. by split.
  - rewrite run_cons.
    destruct (step_activated h c ev Hc) as (c' & -> & Hc'). by apply IH.
Qed.

Lemma run_initial (h : store) (evs : list event) :
  exists c, run (h, initial) evs = (h, c) /\ activated h c.
Proof. apply run_activated. constructor. Qed.

Lemma activated_length (h : store) (c : instance) :
  activated h c -> (length (recentChats c) <= 5)%nat.
Proof.
  destruct 1 as [| | reason | allChats]; [simpl; lia .. |].
  apply loadRecentChats_length.
Qed.

Lemma activated_sorted (h : store) (c : instance) :
  activated h c -> StronglySorted (newest_first (recency h)) (recentChats c).
Proof.
  destruct 1 as [| | reason | allChats]; [constructor .. |].
  apply loadRecentChats_sorted.
Qed.

Lemma activated_reads (h : store) (c : instance) :
  activated h c -> (getAll_calls c <= 1)%nat.
Proof. destruct 1; simpl; lia. Qed.

Lemma step_store (w : store * instance) (ev : event) :
  fst (step w ev) = fst w.
Proof.
  destruct w as [h c], ev as [| [arr | e] |]; simpl;
    destruct (current c); try reflexivity.
  simpl. unfold loadRecentChats. by destruct (0 <? Z.of_nat (length arr)).
Qed.

Lemma run_store (w : store * instance) (evs : list event) :
  fst (run w evs) = fst w.
Proof.
  revert w. induction evs as [| ev evs IH]; intros w; [done |].
  by rewrite run_cons, IH, step_store.
Qed.

(** ** Rows *)

Lemma chat_rows_not_view_all (env : Env) (h : store) (l : list loc) :
  filter (fun r => is_view_all r = false) (map (chat_row env h) l)
  = map (chat_row env h) l.
Proof.
  induction l as [| x l IH]; [done |].
  simpl. rewrite filter_cons_True by done. by rewrite IH.
Qed.

Lemma chat_rows_view_all_count (env : Env) (h : store) (l : list loc) :
  view_all_count (map (chat_row env h) l) = 0%nat.
Proof.
  unfold view_all_count. induction l as [| x l IH]; [done |].
  simpl. by rewrite filter_cons_False.
Qed.

Lemma chat_row_lookup (env : Env) (h : store) (c : instance) (i : nat) (r : loc) :
  recentChats c !! i = Some r ->
  RecentChats env h c !! i = Some (chat_row env h r).
Proof.
  intros Hr. unfold RecentChats. rewrite lookup_app_l.
  - by rewrite list_lookup_fmap, Hr.
  - rewrite length_map. eapply lookup_lt_Some, Hr.
Qed.

Lemma chat_row_label (env : Env) (h : store) (c : instance) (i : nat) (r : loc) :
  recentChats c !! i = Some r ->
  (row_label <$> RecentChats env h c !! i) = Some (label (h r)).
Proof. intros Hr. by rewrite (chat_row_lookup env h c i r Hr). Qed.

(** ** The recency preview *)

(** C2. However the cache read settles and whatever array it resolves
    with, [loadRecentChats] stores at most five entries; and in every state
    an activation can reach the component holds at most five chats and
    renders at most five chat rows. *)
Theorem loadRecent_at_most_five (env : Env) (h : store)
    (getAll : settled (list loc)) (evs : list event) :
  (length (recentChats_after (loadRecentChats h getAll [])) <= 5)%nat
  /\ (length (recentChats (snd (run (h, initial) evs))) <= 5)%nat
  /\ (length (filter (fun r => is_view_all r = false)
                (RecentChats env h (snd (run (h, initial) evs)))) <= 5)%nat.
Proof.
  split; [apply loadRecentChats_length |].
  destruct (run_initial h evs) as (c & -> & Hc). simpl.
  pose proof (activated_length h c Hc) as Hlen.
  split; [done |].
  unfold RecentChats. rewrite filter_app.
  rewrite chat_rows_not_view_all, length_app, length_map.
  destruct (0 <? Z.of_nat (length (recentChats c))); simpl; lia.
Qed.

(** C3. In every state an activation can reach, the chats held are ordered
    by decreasing [lastMessageAt]: an entry standing before another has a
    time value at least as large. *)
Theorem loadRecent_sorted_descending (h : store) (evs : list event)
    (i j : nat) (a b : loc) :
  (i < j)%nat ->
  recentChats (snd (run (h, initial) evs)) !! i = Some a ->
  recentChats (snd (run (h, initial) evs)) !! j = Some b ->
  getTime (lastMessageAt (h a)) >= getTime (lastMessageAt (h b)).
Proof.
  destruct (run_initial h evs) as (c & -> & Hc). simpl.
  intros Hij Ha Hb.
  pose proof (StronglySorted_lookup _ _ i j a b (activated_sorted h c Hc)
                Hij Ha Hb) as Hab.
  unfold newest_first, recency in Hab. lia.
Qed.

Lemma loadRecent_sorted_descending_witness :
  (0 < 4)%nat
  /\ recentChats (snd (run (scenario_store, initial) (activation six_chats))) !! 0%nat
     = Some 1%nat
  /\ recentChats (snd (run (scenario_store, initial) (activation six_chats))) !! 4%nat
     = Some 5%nat
  /\ getTime (lastMessageAt (scenario_store 1%nat))
     >= getTime (lastMessageAt (scenario_store 5%nat)).
Proof.
  split; [lia |]. split; [reflexivity |]. split; [reflexivity |].
  apply (loadRecent_sorted_descending scenario_store (activation six_chats)
           0%nat 4%nat 1%nat 5%nat);
    [lia | reflexivity | reflexivity].
Defined.

(** C4. When the cache holds more than five chats, [loadRecentChats] keeps
    exactly five of them, and every chat it drops has a [lastMessageAt] no
    greater than that of every chat it keeps. *)
Theorem loadRecent_keeps_five_most_recent (h : store) (allChats : list loc) :
  (5 < length allChats)%nat ->
  let recent := recentChats_after (loadRecentChats h (Fulfilled allChats) []) in
  length recent = 5%nat
  /\ exists dropped,
       allChats ≡ₚ recent ++ dropped
       /\ length dropped = (length allChats - 5)%nat
       /\ forall a d, a ∈ recent -> d ∈ dropped ->
            getTime (lastMessageAt (h d)) <= getTime (lastMessageAt (h a)).
Proof.
  intros Hlen recent. subst recent.
  assert (allChats <> []) as Hne by (destruct allChats; [simpl in Hlen; lia | done]).
  rewrite loadRecentChats_recent by done.
  set (sorted := Array_sort (compareFn h) allChats).
  assert (length sorted = length allChats) as Hsl by apply Array_sort_length.
  split; [rewrite length_take; lia |].
  exists (drop 5 sorted). split; [| split].
  - rewrite take_drop. symmetry. apply Array_sort_Permutation.
  - rewrite length_drop. lia.
  - intros a d Ha Hd.
    apply (StronglySorted_take_drop (newest_first (recency h)) sorted 5 a d);
      [| done | done].
    apply (Array_sort_sorted (recency h) (compareFn h) (compareFn_recency h)).
Qed.

Lemma loadRecent_keeps_five_most_recent_witness :
  (5 < length six_chats)%nat
  /\ (let recent :=
        recentChats_after (loadRecentChats scenario_store (Fulfilled six_chats) []) in
      length recent = 5%nat
      /\ exists dropped,
           six_chats ≡ₚ recent ++ dropped
           /\ length dropped = (length six_chats - 5)%nat
           /\ forall a d, a ∈ recent -> d ∈ dropped ->
                getTime (lastMessageAt (scenario_store d))
                <= getTime (lastMessageAt (scenario_store a))).
Proof.
  split; [simpl; lia |].
  apply (loadRecent_keeps_five_most_recent scenario_store six_chats). simpl; lia.
Defined.

(** The scenario of the six chats last active at [T-1] ... [T-6]: the view
    holds the chats of [T-1] ... [T-5], most recent first, and the chat of
    [T-6] is dropped. *)
Example six_chats_scenario :
  let recent :=
    recentChats (snd (run (scenario_store, initial) (activation six_chats))) in
  recent = [1; 2; 3; 4; 5]%nat
  /\ map (recency scenario_store) recent
     = [T_now - 1; T_now - 2; T_now - 3; T_now - 4; T_now - 5]
  /\ 6%nat ∉ recent.
Proof.
  split; [reflexivity |]. split; [reflexivity |].
  vm_compute. intros H. repeat (apply elem_of_cons in H as [H | H]; [discriminate |]).
  by apply elem_of_nil in H.
Qed.

(** C9. [loadRecentChats] leaves every Chat object as it found it: the
    store after the call, and after any sequence of events of an activation,
    is the store before, so [id], [title], [messages] and [lastMessageAt] of
    every chat are unchanged. *)
Theorem loadRecentChats_never_mutates_chats (h : store)
    (getAll : settled (list loc)) (st : list loc) (c : instance)
    (evs : list event) (r : loc) :
  let h' := store_after (loadRecentChats h getAll st) in
  let h'' := fst (run (h, c) evs) in
  h' = h /\ h'' = h
  /\ id (h' r) = id (h r) /\ title (h' r) = title (h r)
  /\ messages (h' r) = messages (h r)
  /\ lastMessageAt (h' r) = lastMessageAt (h r).
Proof.
  intros h' h''.
  assert (h' = h) as ->.
  { subst h'. destruct getAll as [arr | e]; [| reflexivity].
    unfold loadRecentChats. by destruct (0 <? Z.of_nat (length arr)). }
  split; [reflexivity |]. split; [apply (run_store (h, c)) |].
  repeat split.
Qed.

(** What the sort does change is the array [getAll] resolved with: it is
    reordered in place, while the state receives a fresh array. *)
Remark loadRecentChats_sorts_in_place (h : store) (allChats st : list loc) :
  allChats <> [] ->
  allChats_after (loadRecentChats h (Fulfilled allChats) st)
  = Some (Array_sort (compareFn h) allChats).
Proof.
  intros Hne. unfold loadRecentChats.
  destruct allChats as [| r l]; [done | reflexivity].
Qed.

(** ** Rendering *)

(** C5. The view-all row is rendered exactly when the component holds at
    least one chat: with no chat nothing at all is rendered; otherwise the
    rows are the chat rows followed by the view-all row, which occurs once. *)
Theorem view_all_row_iff_populated (env : Env) (h : store) (c : instance) :
  (recentChats c = [] -> RecentChats env h c = [])
  /\ (recentChats c <> [] ->
      RecentChats env h c = map (chat_row env h) (recentChats c) ++ [view_all_row env]
      /\ view_all_count (RecentChats env h c) = 1%nat)
  /\ (view_all_row env ∈ RecentChats env h c <-> recentChats c <> []).
Proof.
  unfold RecentChats. destruct (recentChats c) as [| r l] eqn:Hc.
  - simpl. split; [done |]. split; [done |].
    split; [intros H; by apply elem_of_nil in H | done].
  - change (0 <? Z.of_nat (length (r :: l))) with true.
    split; [done |]. split.
    + intros _. split; [done |].
      unfold view_all_count. rewrite filter_app, length_app.
      fold (view_all_count (map (chat_row env h) (r :: l))).
      by rewrite chat_rows_view_all_count.
    + split; [done |]. intros _. apply elem_of_app. right. apply list_elem_of_singleton.
      reflexivity.
Qed.

Lemma view_all_row_iff_populated_witness :
  let c := snd (run (scenario_store, initial) (activation six_chats)) in
  recentChats c <> []
  /\ RecentChats english scenario_store c
     = map (chat_row english scenario_store) (recentChats c) ++ [view_all_row english]
  /\ view_all_count (RecentChats english scenario_store c) = 1%nat
  /\ RecentChats english scenario_store initial = [].
Proof.
  intros c.
  assert (recentChats c <> []) as Hne by (vm_compute; discriminate).
  split; [exact Hne |].
  pose proof (view_all_row_iff_populated english scenario_store c) as (_ & Hpop & _).
  pose proof (view_all_row_iff_populated english scenario_store initial) as (Hemp & _).
  destruct (Hpop Hne) as [Hrows Hcount].
  split; [exact Hrows |]. split; [exact Hcount |].
  apply Hemp. reflexivity.
Defined.

(** C6, amended. The label of a rendered chat row is the chat's title,
    verbatim, when the title is set and not the empty string; when the
    title is absent or empty and the chat has a first message, it is the
    first 20 characters of that message (all of it when shorter) followed
    by ["..."]. *)
Theorem label_title_or_preview (env : Env) (h : store) (c : instance)
    (i : nat) (r : loc) :
  recentChats c !! i = Some r ->
  (row_label <$> RecentChats env h c !! i) = Some (label (h r))
  /\ (forall s, title (h r) = Some s -> s <> "" -> label (h r) = s)
  /\ (forall m, title (h r) = None \/ title (h r) = Some "" ->
        messages (h r) !! 0%nat = Some m ->
        label (h r) = (substring 0 20 (message m) ++ "...")%string).
Proof.
  intros Hr. split; [by apply chat_row_label |].
  unfold label, js_or, js_plus. split.
  - intros s -> Hs. destruct s; [done | reflexivity].
  - intros m Ht ->.
    pose proof (String_slice_prefix (message m) 20) as Hs.
    change (Z.of_nat 20) with 20 in Hs.
    cbn [fmap option_fmap option_map ToString]. rewrite Hs.
    by destruct Ht as [-> | ->].
Qed.

Lemma label_title_or_preview_witness :
  let c := snd (run (scenario_store, initial) (activation six_chats)) in
  recentChats c !! 0%nat = Some 1%nat
  /\ recentChats c !! 3%nat = Some 4%nat
  /\ recentChats c !! 4%nat = Some 5%nat
  /\ (row_label <$> RecentChats english scenario_store c !! 0%nat)
     = Some (label (scenario_chat 1%nat))
  /\ label (scenario_chat 1%nat) = "Solana swaps"
  /\ label (scenario_chat 4%nat) = "what is the price of..."
  /\ label (scenario_chat 5%nat) = "what is the price of...".
Proof.
  intros c.
  assert (recentChats c !! 0%nat = Some 1%nat) as H1 by reflexivity.
  assert (recentChats c !! 3%nat = Some 4%nat) as H4 by reflexivity.
  assert (recentChats c !! 4%nat = Some 5%nat) as H5 by reflexivity.
  pose proof (label_title_or_preview english scenario_store c _ _ H1)
    as (Hrow & Htitle & _).
  pose proof (label_title_or_preview english scenario_store c _ _ H4)
    as (_ & _ & Hempty).
  pose proof (label_title_or_preview english scenario_store c _ _ H5)
    as (_ & _ & Habsent).
  split; [exact H1 |]. split; [exact H4 |]. split; [exact H5 |].
  split; [exact Hrow |]. split; [| split].
  - apply (Htitle "Solana swaps"); [reflexivity | discriminate].
  - apply (Hempty {| message := "what is the price of SOL today" |});
      [right; reflexivity | reflexivity].
  - apply (Habsent {| message := "what is the price of SOL today" |});
      [left; reflexivity | reflexivity].
Defined.

(** C6 as stated fails on two chats of the scenario store: chat 6 has no
    title and no message, so its label is the preview of no first message;
    chat 4 has the title [""], and its label is not that title. *)
Lemma label_not_always_title_or_preview :
  (title (scenario_chat 6%nat) = None
   /\ ~ exists m, messages (scenario_chat 6%nat) !! 0%nat = Some m
              /\ label (scenario_chat 6%nat)
                 = (substring 0 20 (message m) ++ "...")%string)
  /\ (title (scenario_chat 4%nat) = Some ""
      /\ label (scenario_chat 4%nat) <> "").
Proof.
  split; split; try reflexivity.
  - intros (m & Hm & _). discriminate Hm.
  - discriminate.
Qed.

(** C10. A chat with no title and no message is still rendered: its label
    expression evaluates, to the string ["undefined..."]. *)
Theorem label_without_title_and_messages (env : Env) (h : store)
    (c : instance) (i : nat) (r : loc) :
  recentChats c !! i = Some r ->
  title (h r) = None -> messages (h r) = [] ->
  label (h r) = "undefined..."
  /\ (row_label <$> RecentChats env h c !! i) = Some "undefined...".
Proof.
  intros Hr Ht Hm.
  assert (label (h r) = "undefined...") as Hl by (unfold label; by rewrite Ht, Hm).
  split; [done |]. by rewrite (chat_row_label env h c i r Hr), Hl.
Qed.

Lemma label_without_title_and_messages_witness :
  let c := snd (run (scenario_store, initial) (activation [6%nat])) in
  recentChats c !! 0%nat = Some 6%nat
  /\ title (scenario_store 6%nat) = None
  /\ messages (scenario_store 6%nat) = []
  /\ label (scenario_store 6%nat) = "undefined..."
  /\ (row_label <$> RecentChats english scenario_store c !! 0%nat)
     = Some "undefined...".
Proof.
  intros c. split; [reflexivity |]. split; [reflexivity |]. split; [reflexivity |].
  apply (label_without_title_and_messages english scenario_store c 0%nat 6%nat);
    reflexivity.
Defined.

(** C7. Every chat row carries the relative time [formatDistanceToNow]
    derives from the chat's [lastMessageAt], with a suffix and in the locale
    [getLocale] selects from the active language: [zhCN] exactly when the
    language tag starts with ["zh"], date-fns' default locale otherwise.
    Both cases occur. *)
Theorem relative_time_locale (env : Env) (h : store) (c : instance)
    (i : nat) (r : loc) :
  recentChats c !! i = Some r ->
  (row_time <$> RecentChats env h c !! i)
  = Some (Some (formatDistanceToNow env (lastMessageAt (h r))
                  {| addSuffix := true;
                     locale := if startsWith (language env) "zh"
                               then Some zhCN else None |}))
  /\ (getLocale env = Some zhCN <-> startsWith (language env) "zh" = true)
  /\ (getLocale env = None <-> startsWith (language env) "zh" = false)
  /\ getLocale english = None
  /\ getLocale chinese = Some zhCN.
Proof.
  intros Hr. split.
  - by rewrite (chat_row_lookup env h c i r Hr).
  - unfold getLocale.
    destruct (startsWith (language env) "zh"); repeat split; congruence.
Qed.

Lemma relative_time_locale_witness :
  let c := snd (run (scenario_store, initial) (activation six_chats)) in
  recentChats c !! 0%nat = Some 1%nat
  /\ (row_time <$> RecentChats chinese scenario_store c !! 0%nat)
     = Some (Some "5 fen zhong qian")
  /\ (row_time <$> RecentChats english scenario_store c !! 0%nat)
     = Some (Some "5 minutes ago").
Proof.
  intros c. split; [reflexivity |]. split.
  - apply (relative_time_locale chinese scenario_store c 0%nat 1%nat). reflexivity.
  - apply (relative_time_locale english scenario_store c 0%nat 1%nat). reflexivity.
Defined.

(** ** Life cycle *)

Lemma step_done (h : store) (c : instance) (ev : event) :
  current c = Done -> step (h, c) ev = (h, c).
Proof. intros Hc. destruct ev; simpl; rewrite ?Hc; reflexivity. Qed.

Lemma run_done (h : store) (c : instance) (evs : list event) :
  current c = Done -> run (h, c) evs = (h, c).
Proof.
  intros Hc. induction evs as [| ev evs IH]; [done |].
  by rewrite run_cons, step_done.
Qed.

Lemma run_rerenders (w : store * instance) (n : nat) :
  run w (replicate n Rerender) = w.
Proof.
  induction n as [| n IH]; [done |].
  simpl replicate. rewrite run_cons.
  replace (step w Rerender) with w; [done |].
  by destruct w as [h c].
Qed.

Lemma activated_populated_done (h : store) (c : instance) :
  activated h c -> populated c = true -> current c = Done.
Proof. destruct 1; simpl; done. Qed.

Lemma trace_activated (h : store) (c : instance) (evs : list event) :
  activated h c -> Forall (activated h) (map snd (trace (h, c) evs)).
Proof.
  revert c. induction evs as [| ev evs IH]; intros c Hc; [constructor |].
  cbn [trace map].
  destruct (step_activated h c ev Hc) as (c' & Hstep & Hc').
  rewrite Hstep. constructor; [done | by apply IH].
Qed.

Lemma trace_transitions (h : store) (c : instance) (evs : list event) :
  activated h c ->
  (populations c (map snd (trace (h, c) evs))
   + (if populated c then 1 else 0) <= 1)%nat
  /\ depopulations c (map snd (trace (h, c) evs)) = 0%nat.
Proof.
  revert c. induction evs as [| ev evs IH]; intros c Hc.
  - simpl. destruct (populated c); split; lia.
  - cbn [trace map populations depopulations].
    destruct (populated c) eqn:Hpop.
    + rewrite (step_done h c ev) by (by apply (activated_populated_done h)).
      destruct (IH c Hc) as [Hp Hd]. cbn [snd]. rewrite Hpop in *.
      simpl. split; lia.
    + destruct (step_activated h c ev Hc) as (c' & -> & Hc').
      destruct (IH c' Hc') as [Hp Hd]. cbn [snd negb andb].
      destruct (populated c'); simpl; split; lia.
Qed.

(** C8. An activation starts empty; every state it passes through is
    either empty or populated with one to five chats; the view changes from
    empty to populated at most once, only when the pending read settles
    with a non-empty array, and never changes back to empty. *)
Theorem view_states_and_transitions (h : store) (evs : list event) :
  let cs := map snd (trace (h, initial) evs) in
  populated initial = false
  /\ Forall (fun c => recentChats c = []
                      \/ (1 <= length (recentChats c) <= 5)%nat) cs
  /\ (populations initial cs <= 1)%nat
  /\ depopulations initial cs = 0%nat
  /\ (forall c ev,
        populated c = false -> populated (snd (step (h, c) ev)) = true ->
        current c = Awaiting
        /\ exists allChats, ev = Settle (Fulfilled allChats) /\ allChats <> []).
Proof.
  intros cs. split; [reflexivity |]. split; [| split; [| split]].
  - eapply Forall_impl; [apply trace_activated; constructor |].
    intros c Hc. simpl. pose proof (activated_length h c Hc).
    destruct (recentChats c); [by left | right; simpl in *; lia].
  - destruct (trace_transitions h initial evs (act_mounting h)) as [Hp _].
    subst cs. lia.
  - apply (trace_transitions h initial evs (act_mounting h)).
  - intros c ev Hc Hc'.
    destruct ev as [| [arr | e] |]; simpl in Hc';
      destruct (current c) eqn:Hcur; unfold populated in *; simpl in Hc';
      try congruence.
    split; [reflexivity |]. exists arr. split; [reflexivity |].
    intros ->. simpl in Hc'. congruence.
Qed.

Lemma view_states_and_transitions_witness :
  populated (snd (run (scenario_store, initial) [RunEffects])) = false
  /\ populated (snd (step (run (scenario_store, initial) [RunEffects])
                       (Settle (Fulfilled six_chats)))) = true
  /\ current (snd (run (scenario_store, initial) [RunEffects])) = Awaiting
  /\ (exists allChats,
        Settle (Fulfilled six_chats) = Settle (Fulfilled allChats)
        /\ allChats <> []).
Proof.
  split; [reflexivity |]. split; [reflexivity |].
  apply (proj2 (proj2 (proj2 (proj2
           (view_states_and_transitions scenario_store []))))
           (snd (run (scenario_store, initial) [RunEffects]))
           (Settle (Fulfilled six_chats)));
    reflexivity.
Defined.

(** The two-state reading of the six-chat scenario: one change to
    populated, at the settlement of the read. *)
Example six_chats_transitions :
  map (fun w => populated (snd w))
      (trace (scenario_store, initial) (activation six_chats))
  = [false; false; true; true]
  /\ populations initial
       (map snd (trace (scenario_store, initial) (activation six_chats))) = 1%nat.
Proof. split; reflexivity. Qed.

(** ** A failing read *)

(** C1, amended. When the cache read rejects, the state stays empty, no row
    is rendered, the read is not retried, and the steps of the component
    themselves complete; the rejection is not caught: the promise of
    [loadRecentChats] rejects with the same reason and reaches the host as
    an unhandled rejection. *)
Theorem failed_read_leaves_view_empty (env : Env) (h : store)
    (reason : JsError) (n : nat) (evs : list event) :
  let c := snd (run (h, initial)
                  (RunEffects :: replicate n Rerender
                   ++ Settle (Rejected reason) :: evs)) in
  recentChats c = []
  /\ RecentChats env h c = []
  /\ getAll_calls c = 1%nat
  /\ completion (loadRecentChats h (Rejected reason) []) = Rejected reason
  /\ unhandled_rejections c = [reason].
Proof.
  intros c. subst c.
  rewrite run_cons, run_app, run_rerenders, run_cons. simpl step.
  rewrite run_done by reflexivity. simpl. repeat split.
Qed.

(** C1 as stated fails: after a rejected read the rejection has escaped to
    the host. *)
Lemma failed_read_is_not_handled :
  let c := snd (run (scenario_store, initial)
                  (failed_activation (Error "cache unavailable"))) in
  ~ (recentChats c = []
     /\ RecentChats english scenario_store c = []
     /\ unhandled_rejections c = []
     /\ getAll_calls c = 1%nat).
Proof. intros c (_ & _ & Hunhandled & _). discriminate Hunhandled. Qed.

(** * Further properties of the component *)

(** ** What the preview holds *)

Lemma loadRecentChats_initial (h : store) (allChats : list loc) :
  recentChats_after (loadRecentChats h (Fulfilled allChats) [])
  = take 5 (Array_sort (compareFn h) allChats).
Proof.
  destruct allChats as [| r l]; [reflexivity |].
  by apply loadRecentChats_recent.
Qed.

Lemma Array_sort_recency_sorted (h : store) (l : list loc) :
  StronglySorted (newest_first (recency h)) (Array_sort (compareFn h) l).
Proof. apply (Array_sort_sorted (recency h)), compareFn_recency. Qed.

(** X1. A cache of at most five chats is shown in full: the list stored is
    a rearrangement of the array the read resolved with, nothing dropped
    and nothing repeated. *)
Theorem small_cache_shown_in_full (h : store) (allChats : list loc) :
  (length allChats <= 5)%nat ->
  recentChats_after (loadRecentChats h (Fulfilled allChats) []) ≡ₚ allChats.
Proof.
  intros Hlen. rewrite loadRecentChats_initial.
  rewrite take_ge by (rewrite Array_sort_length; lia).
  apply Array_sort_Permutation.
Qed.

Lemma small_cache_shown_in_full_witness :
  (length three_chats <= 5)%nat
  /\ recentChats_after (loadRecentChats scenario_store (Fulfilled three_chats) [])
     ≡ₚ three_chats.
Proof.
  split; [simpl; lia |].
  apply (small_cache_shown_in_full scenario_store three_chats). simpl; lia.
Defined.

(** X2. The first entry of the preview is the most recently active chat of
    the whole cache: no chat of the array the read resolved with has a
    later [lastMessageAt]. *)
Theorem first_entry_is_most_recent (h : store) (allChats : list loc) (a r : loc) :
  recentChats_after (loadRecentChats h (Fulfilled allChats) []) !! 0%nat = Some a ->
  r ∈ allChats ->
  getTime (lastMessageAt (h r)) <= getTime (lastMessageAt (h a)).
Proof.
  rewrite loadRecentChats_initial. intros Ha Hr.
  rewrite lookup_take_lt in Ha by lia.
  rewrite <- (Array_sort_Permutation (compareFn h)) in Hr.
  apply list_elem_of_lookup in Hr as [j Hj].
  destruct j as [| j]; [rewrite Ha in Hj; injection Hj as ->; lia |].
  apply (StronglySorted_lookup (newest_first (recency h))
           (Array_sort (compareFn h) allChats) 0%nat (S j) a r);
    [apply Array_sort_recency_sorted | lia | done | done].
Qed.

Lemma first_entry_is_most_recent_witness :
  recentChats_after (loadRecentChats scenario_store (Fulfilled six_chats) []) !! 0%nat
  = Some 1%nat
  /\ 6%nat ∈ six_chats
  /\ getTime (lastMessageAt (scenario_store 6%nat))
     <= getTime (lastMessageAt (scenario_store 1%nat)).
Proof.
  assert (6%nat ∈ six_chats) as Hin.
  { apply list_elem_of_lookup. exists 1%nat. reflexivity. }
  split; [reflexivity |]. split; [exact Hin |].
  apply (first_entry_is_most_recent scenario_store six_chats 1%nat 6%nat);
    [reflexivity | exact Hin].
Defined.

Lemma filter_key_at_most_one {A : Type} (key : A -> Z) (k : Z) (l : list A) :
  NoDup (map key l) -> (length (filter (fun a => key a = k) l) <= 1)%nat.
Proof.
  induction l as [| x l IH]; simpl; [lia |].
  intros [Hx Hl]%NoDup_cons. specialize (IH Hl).
  rewrite filter_cons. destruct (decide (key x = k)) as [Hk | Hk]; [| done].
  destruct (filter (fun a => key a = k) l) as [| y f] eqn:Hf; [simpl; lia |].
  exfalso. apply Hx.
  assert (y ∈ filter (fun a => key a = k) l) as Hy by (rewrite Hf; apply list_elem_of_here).
  apply list_elem_of_filter in Hy as [Hyk Hyl].
  rewrite Hk, <- Hyk. by apply (list_elem_of_fmap_2 key).
Qed.

Lemma short_Permutation_eq {A : Type} (l1 l2 : list A) :
  (length l1 <= 1)%nat -> l1 ≡ₚ l2 -> l1 = l2.
Proof.
  destruct l1 as [| x [| y l1]]; simpl; intros Hlen Hp.
  - by apply Permutation_nil_l.
  - by apply Permutation_singleton_l.
  - lia.
Qed.

(** X3. When the cached chats have pairwise different [lastMessageAt], the
    preview does not depend on the order in which the cache hands them
    over. *)
Theorem cache_order_irrelevant (h : store) (allChats allChats' : list loc) :
  allChats ≡ₚ allChats' ->
  NoDup (map (recency h) allChats) ->
  recentChats_after (loadRecentChats h (Fulfilled allChats) [])
  = recentChats_after (loadRecentChats h (Fulfilled allChats') []).
Proof.
  intros Hperm Hnodup. rewrite !loadRecentChats_initial. f_equal.
  apply (sorted_classes_unique (recency h)); try apply Array_sort_recency_sorted.
  intros k. rewrite !loadRecentChats_ties_keep_order.
  apply short_Permutation_eq; [by apply filter_key_at_most_one |].
  by rewrite Hperm.
Qed.

Lemma cache_order_irrelevant_witness :
  six_chats ≡ₚ reverse six_chats
  /\ NoDup (map (recency scenario_store) six_chats)
  /\ recentChats_after (loadRecentChats scenario_store (Fulfilled six_chats) [])
     = recentChats_after
         (loadRecentChats scenario_store (Fulfilled (reverse six_chats)) []).
Proof.
  assert (six_chats ≡ₚ reverse six_chats) as Hperm
    by (symmetry; apply reverse_Permutation).
  assert (NoDup (map (recency scenario_store) six_chats)) as Hnodup
    by (apply (bool_decide_unpack _); vm_compute; reflexivity).
  split; [exact Hperm |]. split; [exact Hnodup |].
  exact (cache_order_irrelevant scenario_store six_chats (reverse six_chats)
           Hperm Hnodup).
Defined.

Lemma filter_take_prefix {A : Type} (P : A -> Prop) `{!forall x, Decision (P x)}
    (n : nat) (l : list A) :
  filter P (take n l) `prefix_of` filter P l.
Proof.
  exists (filter P (drop n l)). by rewrite <- filter_app, take_drop.
Qed.

(** X4. Chats with the same [lastMessageAt] are not reordered: those of
    them the preview holds are the first ones of the cache array, in the
    order of that array. *)
Theorem ties_in_cache_order (h : store) (allChats : list loc) (k : Z) :
  filter (fun r => getTime (lastMessageAt (h r)) = k)
         (recentChats_after (loadRecentChats h (Fulfilled allChats) []))
  `prefix_of` filter (fun r => getTime (lastMessageAt (h r)) = k) allChats.
Proof.
  rewrite loadRecentChats_initial.
  pose proof (loadRecentChats_ties_keep_order h allChats k) as Hstable.
  unfold recency in Hstable. rewrite <- Hstable.
  apply (filter_take_prefix (fun r => getTime (lastMessageAt (h r)) = k)).
Qed.

(** ** The array the cache resolved with *)

(** X5. A fulfilled read leaves the array it resolved with rearranged in
    place, newest first, with the same elements; the state receives its
    first five entries. *)
Theorem cache_array_sorted_in_place (h : store) (allChats : list loc) :
  exists arr,
    allChats_after (loadRecentChats h (Fulfilled allChats) []) = Some arr
    /\ arr ≡ₚ allChats
    /\ StronglySorted (newest_first (recency h)) arr
    /\ recentChats_after (loadRecentChats h (Fulfilled allChats) []) = take 5 arr.
Proof.
  exists (Array_sort (compareFn h) allChats). split; [| split; [| split]].
  - destruct allChats as [| r l]; reflexivity.
  - apply Array_sort_Permutation.
  - apply Array_sort_recency_sorted.
  - apply loadRecentChats_initial.
Qed.

Lemma loadRecentChats_fulfilled (h : store) (allChats st : list loc) :
  allChats <> [] ->
  loadRecentChats h (Fulfilled allChats) st
  = {| store_after := h;
       allChats_after := Some (Array_sort (compareFn h) allChats);
       recentChats_after := Array_slice (Array_sort (compareFn h) allChats) 0 5;
       completion := Fulfilled tt |}.
Proof. destruct allChats as [| r l]; [done | reflexivity]. Qed.

Lemma Array_sort_idempotent (h : store) (l : list loc) :
  Array_sort (compareFn h) (Array_sort (compareFn h) l) = Array_sort (compareFn h) l.
Proof.
  symmetry. apply (Array_sort_unique (recency h));
    [apply compareFn_recency | apply Array_sort_recency_sorted | done].
Qed.

(** X6. Activating again over the array a previous activation left behind
    changes nothing: the array stays as it is and the same preview is
    stored. *)
Theorem reload_is_idempotent (h : store) (allChats arr : list loc) :
  allChats_after (loadRecentChats h (Fulfilled allChats) []) = Some arr ->
  loadRecentChats h (Fulfilled arr) [] = loadRecentChats h (Fulfilled allChats) [].
Proof.
  intros Harr. destruct allChats as [| r l].
  - injection Harr as <-. reflexivity.
  - change (Some (Array_sort (compareFn h) (r :: l)) = Some arr) in Harr.
    injection Harr as <-.
    assert (Array_sort (compareFn h) (r :: l) <> []) as Hne.
    { intros Hnil. apply (f_equal length) in Hnil.
      by rewrite Array_sort_length in Hnil. }
    rewrite (loadRecentChats_fulfilled h (Array_sort (compareFn h) (r :: l)))
      by done.
    rewrite (loadRecentChats_fulfilled h (r :: l)) by done.
    by rewrite Array_sort_idempotent.
Qed.

Lemma reload_is_idempotent_witness :
  allChats_after (loadRecentChats scenario_store (Fulfilled six_chats) [])
  = Some [1; 2; 3; 4; 5; 6]%nat
  /\ loadRecentChats scenario_store (Fulfilled [1; 2; 3; 4; 5; 6]%nat) []
     = loadRecentChats scenario_store (Fulfilled six_chats) [].
Proof.
  split; [reflexivity |].
  apply (reload_is_idempotent scenario_store six_chats). reflexivity.
Defined.

(** ** Rows *)

Lemma run_fulfilled (h : store) (allChats : list loc) (evs : list event) :
  run (h, initial) (RunEffects :: Settle (Fulfilled allChats) :: evs)
  = (h, {| recentChats := recentChats_after (loadRecentChats h (Fulfilled allChats) []);
           current := Done;
           getAll_calls := 1;
           unhandled_rejections := [] |}).
Proof.
  rewrite !run_cons.
  assert (step (step (h, initial) RunEffects) (Settle (Fulfilled allChats))
          = (h, {| recentChats :=
                     recentChats_after (loadRecentChats h (Fulfilled allChats) []);
                   current := Done;
                   getAll_calls := 1;
                   unhandled_rejections := [] |})) as ->.
  { simpl. unfold loadRecentChats. by destruct (0 <? Z.of_nat (length allChats)). }
  by rewrite run_done.
Qed.

(** X7. After a fulfilled read the component renders one row per chat held
    plus the view-all row: none for an empty cache, otherwise the smaller
    of 5 and the size of the cache, plus one; so never more than six. *)
Theorem rendered_row_count (env : Env) (h : store) (allChats : list loc)
    (evs : list event) :
  let c := snd (run (h, initial) (RunEffects :: Settle (Fulfilled allChats) :: evs)) in
  length (RecentChats env h c)
  = match allChats with
    | [] => 0%nat
    | _ :: _ => S (Nat.min 5 (length allChats))
    end
  /\ (length (RecentChats env h (snd (run (h, initial) evs))) <= 6)%nat.
Proof.
  intros c. split.
  - subst c. rewrite run_fulfilled. cbn [snd].
    unfold RecentChats. cbn [recentChats].
    rewrite length_app, length_map, loadRecentChats_initial, length_take,
      Array_sort_length.
    destruct allChats as [| r l]; [reflexivity |].
    change (length (r :: l)) with (S (length l)).
    replace (0 <? Z.of_nat (5 `min` S (length l))) with true
      by (symmetry; apply Z.ltb_lt; lia).
    simpl length. lia.
  - destruct (run_initial h evs) as (c' & -> & Hc'). cbn [snd].
    pose proof (activated_length h c' Hc').
    unfold RecentChats. rewrite length_app, length_map.
    destruct (0 <? Z.of_nat (length (recentChats c'))); simpl; lia.
Qed.

Lemma chat_row_keys (env : Env) (h : store) (c : instance) :
  omap row_key (RecentChats env h c) = map (fun r => id (h r)) (recentChats c).
Proof.
  unfold RecentChats. rewrite omap_app.
  replace (omap row_key (if 0 <? Z.of_nat (length (recentChats c))
                         then [view_all_row env] else [])) with (@nil string)
    by (by destruct (0 <? Z.of_nat (length (recentChats c)))).
  rewrite app_nil_r.
  induction (recentChats c) as [| r l IH]; [done |].
  simpl. by rewrite <- IH.
Qed.

(** X8. When the chats of the cache have pairwise different ids, the keys
    of the rendered rows are pairwise different. *)
Theorem row_keys_distinct (env : Env) (h : store) (allChats : list loc)
    (evs : list event) :
  NoDup (map (fun r => id (h r)) allChats) ->
  NoDup (omap row_key
           (RecentChats env h
              (snd (run (h, initial)
                      (RunEffects :: Settle (Fulfilled allChats) :: evs))))).
Proof.
  intros Hnodup. rewrite chat_row_keys, run_fulfilled.
  cbn [snd recentChats]. rewrite loadRecentChats_initial.
  change (map (fun r => id (h r)) ?l) with ((fun r => id (h r)) <$> l).
  rewrite fmap_take.
  eapply sublist_NoDup; [| apply sublist_take].
  by rewrite (Array_sort_Permutation (compareFn h) allChats).
Qed.

Lemma row_keys_distinct_witness :
  NoDup (map (fun r => id (scenario_store r)) six_chats)
  /\ NoDup (omap row_key
              (RecentChats english scenario_store
                 (snd (run (scenario_store, initial)
                         (RunEffects :: Settle (Fulfilled six_chats) :: []))))).
Proof.
  assert (NoDup (map (fun r => id (scenario_store r)) six_chats)) as Hnodup
    by (apply (@bool_decide_unpack _ (@NoDup_dec _ string_dec _));
        vm_compute; reflexivity).
  split; [exact Hnodup |].
  exact (row_keys_distinct english scenario_store six_chats [] Hnodup).
Defined.

(** ** Labels *)

Lemma string_length_append (s1 s2 : string) :
  String.length (s1 ++ s2)%string = (String.length s1 + String.length s2)%nat.
Proof. induction s1 as [| a s1 IH]; simpl; [done | by rewrite IH]. Qed.

Lemma substring_0_length_le (n : nat) (s : string) :
  (String.length (substring 0 n s) <= n)%nat.
Proof.
  revert n. induction s as [| a s IH]; intros [| n]; simpl; try lia.
  specialize (IH n). lia.
Qed.

Lemma substring_0_all (n : nat) (s : string) :
  (String.length s <= n)%nat -> substring 0 n s = s.
Proof.
  revert n. induction s as [| a s IH]; intros [| n]; simpl; try done; try lia.
  intros Hlen. rewrite IH; [done | lia].
Qed.

Lemma label_without_title (chat : Chat) :
  title chat = None \/ title chat = Some "" ->
  label chat
  = (ToString ((fun m => substring 0 20 (message m)) <$> messages chat !! 0%nat)
     ++ "...")%string.
Proof.
  intros Ht. unfold label, js_or, js_plus.
  replace (ToBoolean (title chat)) with false by (by destruct Ht as [-> | ->]).
  destruct (messages chat !! 0%nat) as [m |]; [| reflexivity].
  cbn [fmap option_fmap option_map].
  pose proof (String_slice_prefix (message m) 20) as Hs.
  change (Z.of_nat 20) with 20 in Hs. by rewrite Hs.
Qed.

(** X9. A chat row never has an empty label; and when the title is absent
    or empty, the label is a text of at most 20 characters followed by
    ["..."], so at most 23 characters long. *)
Theorem label_nonempty_and_bounded (chat : Chat) :
  label chat <> ""
  /\ (title chat = None \/ title chat = Some "" ->
      (String.length (label chat) <= 23)%nat
      /\ exists p, (String.length p <= 20)%nat
                   /\ label chat = (p ++ "...")%string).
Proof.
  assert (title chat = None \/ title chat = Some "" ->
          exists p, (String.length p <= 20)%nat
                    /\ label chat = (p ++ "...")%string) as Hshape.
  { intros Ht. rewrite (label_without_title chat Ht).
    eexists. split; [| reflexivity].
    destruct (messages chat !! 0%nat) as [m |]; cbn [fmap option_fmap option_map ToString].
    - apply substring_0_length_le.
    - simpl. lia. }
  split.
  - destruct (title chat) as [[| a s] |] eqn:Ht.
    + destruct Hshape as (p & _ & ->); [by right |].
      intros Hnil. apply (f_equal String.length) in Hnil.
      rewrite string_length_append in Hnil. simpl in Hnil. lia.
    + unfold label, js_or. rewrite Ht. simpl. discriminate.
    + destruct Hshape as (p & _ & ->); [by left |].
      intros Hnil. apply (f_equal String.length) in Hnil.
      rewrite string_length_append in Hnil. simpl in Hnil. lia.
  - intros Ht. destruct (Hshape Ht) as (p & Hp & Hl).
    split; [| by exists p].
    rewrite Hl, string_length_append. simpl. lia.
Qed.

Lemma label_nonempty_and_bounded_witness :
  (title (scenario_chat 5%nat) = None \/ title (scenario_chat 5%nat) = Some "")
  /\ (String.length (label (scenario_chat 5%nat)) <= 23)%nat.
Proof.
  assert (title (scenario_chat 5%nat) = None
          \/ title (scenario_chat 5%nat) = Some "") as Ht by (left; reflexivity).
  split; [exact Ht |].
  exact (proj1 (proj2 (label_nonempty_and_bounded (scenario_chat 5%nat)) Ht)).
Defined.

(** X10. The ellipsis is appended whether or not anything was cut: when
    the title is absent or empty and the first message has at most 20
    characters, the label is that whole message followed by ["..."]. *)
Theorem short_message_keeps_ellipsis (chat : Chat) (m : Message) :
  title chat = None \/ title chat = Some "" ->
  messages chat !! 0%nat = Some m ->
  (String.length (message m) <= 20)%nat ->
  label chat = (message m ++ "...")%string.
Proof.
  intros Ht Hm Hlen. rewrite (label_without_title chat Ht), Hm.
  cbn [fmap option_fmap option_map ToString]. by rewrite substring_0_all.
Qed.

Lemma short_message_keeps_ellipsis_witness :
  let chat := {| id := "c"; title := None;
                 messages := [ {| message := "gm" |} ];
                 lastMessageAt := {| getTime := T_now |} |} in
  (title chat = None \/ title chat = Some "")
  /\ messages chat !! 0%nat = Some {| message := "gm" |}
  /\ (String.length "gm" <= 20)%nat
  /\ label chat = "gm...".
Proof.
  intros chat.
  assert (title chat = None \/ title chat = Some "") as Ht by (left; reflexivity).
  split; [exact Ht |]. split; [reflexivity |]. split; [simpl; lia |].
  apply (short_message_keeps_ellipsis chat {| message := "gm" |} Ht);
    [reflexivity | simpl; lia].
Defined.

(** ** One read per activation *)

Lemma step_calls_mono (h : store) (c : instance) (ev : event) :
  (getAll_calls c <= getAll_calls (snd (step (h, c) ev)))%nat.
Proof. destruct ev; simpl; destruct (current c); simpl; lia. Qed.

Lemma run_calls_mono (h : store) (c : instance) (evs : list event) :
  activated h c ->
  (getAll_calls c <= getAll_calls (snd (run (h, c) evs)))%nat.
Proof.
  revert c. induction evs as [| ev evs IH]; intros c Hc; [done |].
  rewrite run_cons.
  destruct (step_activated h c ev Hc) as (c' & Hstep & Hc').
  pose proof (step_calls_mono h c ev) as Hmono.
  rewrite Hstep in *. specialize (IH c' Hc'). simpl in Hmono. lia.
Qed.

(** X11. The cache is read once per activation, when the effects first
    run: after any sequence of events that includes the effects the number
    of reads is one, however many re-renders or settlements follow; before
    the effects run nothing has been read and the instance is as
    mounted. *)
Theorem cache_read_once (h : store) (evs : list event) :
  (RunEffects ∈ evs -> getAll_calls (snd (run (h, initial) evs)) = 1%nat)
  /\ (RunEffects ∉ evs -> run (h, initial) evs = (h, initial)).
Proof.
  split.
  - induction evs as [| ev evs IH]; intros Hin; [by apply elem_of_nil in Hin |].
    rewrite run_cons. destruct ev as [| o |].
    + pose proof (run_calls_mono h _ evs (act_awaiting h)) as Hge.
      destruct (run_activated h _ evs (act_awaiting h)) as (c & Hrun & Hc).
      pose proof (activated_reads h c Hc) as Hle.
      change (step (h, initial) RunEffects)
        with (h, {| recentChats := []; current := Awaiting;
                    getAll_calls := 1; unhandled_rejections := [] |}).
      rewrite Hrun in *. simpl in *. lia.
    + apply IH. by apply elem_of_cons in Hin as [? | ?].
    + apply IH. by apply elem_of_cons in Hin as [? | ?].
  - induction evs as [| ev evs IH]; intros Hnin; [done |].
    rewrite run_cons. apply not_elem_of_cons in Hnin as [Hne Hnin].
    destruct ev as [| o |]; [done | by apply IH | by apply IH].
Qed.

Lemma cache_read_once_witness :
  (RunEffects ∈ activation six_chats)
  /\ getAll_calls (snd (run (scenario_store, initial) (activation six_chats))) = 1%nat
  /\ (RunEffects ∉ [Rerender; Settle (Fulfilled six_chats)])
  /\ run (scenario_store, initial) [Rerender; Settle (Fulfilled six_chats)]
     = (scenario_store, initial).
Proof.
  assert (RunEffects ∈ activation six_chats) as Hin by apply list_elem_of_here.
  assert (RunEffects ∉ [Rerender; Settle (Fulfilled six_chats)]) as Hnin.
  { intros H. apply elem_of_cons in H as [H | H]; [discriminate |].
    apply elem_of_cons in H as [H | H]; [discriminate |].
    by apply elem_of_nil in H. }
  split; [exact Hin |].
  split; [exact (proj1 (cache_read_once scenario_store _) Hin) |].
  split; [exact Hnin |].
  exact (proj2 (cache_read_once scenario_store _) Hnin).
Defined.

(** X12. The preview is a single snapshot: once the read has settled, no
    later event changes the instance. *)
Theorem settled_view_is_final (h : store) (evs evs' : list event) :
  current (snd (run (h, initial) evs)) = Done ->
  run (h, initial) (evs ++ evs') = run (h, initial) evs.
Proof.
  intros Hdone. rewrite run_app.
  destruct (run (h, initial) evs) as [h' c]. by apply run_done.
Qed.

Lemma settled_view_is_final_witness :
  current (snd (run (scenario_store, initial) (activation six_chats))) = Done
  /\ run (scenario_store, initial)
       (activation six_chats ++ [RunEffects; Settle (Fulfilled three_chats)])
     = run (scenario_store, initial) (activation six_chats).
Proof.
  split; [reflexivity |].
  apply (settled_view_is_final scenario_store (activation six_chats)). reflexivity.
Defined.

(** X13. At most one rejection goes unhandled in an activation, and only
    in a settled instance whose view is empty: a view that shows chats never
    comes with an unhandled rejection. *)
Theorem unhandled_only_when_empty (h : store) (evs : list event) :
  let c := snd (run (h, initial) evs) in
  (length (unhandled_rejections c) <= 1)%nat
  /\ (unhandled_rejections c <> [] -> recentChats c = [] /\ current c = Done).
Proof.
  intros c. subst c. destruct (run_initial h evs) as (c & -> & Hc).
  destruct Hc; simpl; split; try lia; try done.
Qed.

Lemma unhandled_only_when_empty_witness :
  let c := snd (run (scenario_store, initial)
                  (failed_activation (Error "cache unavailable"))) in
  unhandled_rejections c <> [] /\ recentChats c = [] /\ current c = Done.
Proof.
  intros c.
  assert (unhandled_rejections c <> []) as Hne by discriminate.
  split; [exact Hne |].
  exact (proj2 (unhandled_only_when_empty scenario_store
                  (failed_activation (Error "cache unavailable"))) Hne).
Defined.
